(** * Error-location descriptor of the validation layers

    A shallow embedding of [layers/core_error_location.h]: the three
    identity enumerations, the [CoreErrorLocation] structure with its
    [dot] (descent) and [Message] (rendering) methods, and the
    [CoreErrorLocationVuidAdapter] template, followed by the properties
    of the specification that concern them. *)

From Stdlib Require Import Arith NArith List String Ascii Bool Lia.
Import ListNotations.

Local Open Scope N_scope.

(** ** Identity enumerations *)

(** [enum class ErrFunc] *)
Module ErrFunc.
Inductive t : Set :=
| Empty
| vkQueueSubmit
| vkQueueSubmit2KHR
| vkCmdSetEvent
| vkCmdSetEvent2KHR
| vkCmdResetEvent
| vkCmdResetEvent2KHR
| vkCmdPipelineBarrier
| vkCmdPipelineBarrier2KHR
| vkCmdWaitEvents
| vkCmdWaitEvents2KHR
| vkCmdWriteTimestamp2
| vkCmdWriteTimestamp2KHR
| vkCreateRenderPass
| vkCreateRenderPass2
| vkQueueBindSparse
| vkSignalSemaphore.
End ErrFunc.

(** [enum class RefPage] *)
Module RefPage.
Inductive t : Set :=
| Empty
| VkMemoryBarrier
| VkMemoryBarrier2KHR
| VkBufferMemoryBarrier
| VkImageMemoryBarrier
| VkBufferMemoryBarrier2KHR
| VkImageMemoryBarrier2KHR
| VkSubmitInfo
| VkSubmitInfo2KHR
| VkCommandBufferSubmitInfoKHR
| vkCmdSetEvent
| vkCmdSetEvent2KHR
| vkCmdResetEvent
| vkCmdResetEvent2KHR
| vkCmdPipelineBarrier
| vkCmdPipelineBarrier2KHR
| vkCmdWaitEvents
| vkCmdWaitEvents2KHR
| vkCmdWriteTimestamp2
| vkCmdWriteTimestamp2KHR
| VkSubpassDependency
| VkSubpassDependency2
| VkBindSparseInfo
| VkSemaphoreSignalInfo.
End RefPage.

(** [enum class Field] *)
Module Field.
Inductive t : Set :=
| Empty
| oldLayout
| newLayout
| image
| buffer
| pMemoryBarriers
| pBufferMemoryBarriers
| pImageMemoryBarriers
| offset
| size
| subresourceRange
| srcAccessMask
| dstAccessMask
| srcStageMask
| dstStageMask
| pNext
| pWaitDstStageMask
| pWaitSemaphores
| pSignalSemaphores
| pWaitSemaphoreInfos
| pWaitSemaphoreValues
| pSignalSemaphoreInfos
| pSignalSemaphoreValues
| stage
| stageMask
| value
| pCommandBuffers
| pSubmits
| pCommandBufferInfos
| semaphore
| commandBuffer
| dependencyFlags
| pDependencyInfo
| pDependencyInfos
| srcQueueFamilyIndex
| dstQueueFamilyIndex
| queryPool
| pDependencies.

(** Comparison of two enumerators, as [==] and [!=] on the enum class. *)
Definition eq_dec (a b : t) : {a = b} + {a <> b}.
Proof. decide equality. Defined.
End Field.

(** ** Unsigned 32-bit indices

    A [uint32_t] is a natural number below [2^32]; the structure never
    does arithmetic on an index, it only compares it with [kNoIndex] and
    prints it. *)

Definition uint32_max : N := 2 ^ 32 - 1.

Definition is_uint32 (n : N) : Prop := n < 2 ^ 32.

(** [static const uint32_t kNoIndex = std::numeric_limits<uint32_t>::max();] *)
Definition kNoIndex : N := uint32_max.

(** ** The structure *)

(** [struct Path]: one step of the walk into arrays of structures. *)
Module Path.
Record t : Set := mk { field : Field.t; index : N }.

(** [Path() : field(Field::Empty), index(kNoIndex) {}] *)
Definition default : t := mk Field.Empty kNoIndex.
End Path.

(** [struct CoreErrorLocation].  The [small_vector<Path, 3>] is an ordered
    sequence held by value; its inline capacity does not show in its
    contents. *)
Record CoreErrorLocation : Set := mkLoc {
  func_name : ErrFunc.t;
  refpage : RefPage.t;
  field_name : Field.t;
  index : N;
  field_path : list Path.t
}.

(** Assignments to single members of a local object. *)
Definition set_field_path (fp : list Path.t) (l : CoreErrorLocation) : CoreErrorLocation :=
  mkLoc (func_name l) (refpage l) (field_name l) (index l) fp.

Definition set_field_name (f : Field.t) (l : CoreErrorLocation) : CoreErrorLocation :=
  mkLoc (func_name l) (refpage l) f (index l) (field_path l).

Definition set_index (i : N) (l : CoreErrorLocation) : CoreErrorLocation :=
  mkLoc (func_name l) (refpage l) (field_name l) i (field_path l).

(** [field_path.emplace_back(p)] *)
Definition emplace_back (p : Path.t) (l : CoreErrorLocation) : CoreErrorLocation :=
  set_field_path (field_path l ++ [p]) l.

(** [CoreErrorLocation(ErrFunc func, RefPage ref, Field f = Field::Empty,
    uint32_t i = kNoIndex)]; the path member is default-initialised, that
    is, empty. *)
Definition CoreErrorLocation_new (func : ErrFunc.t) (ref : RefPage.t)
    (f : Field.t) (i : N) : CoreErrorLocation :=
  mkLoc func ref f i [].

(** The constructor called with its two mandatory arguments only. *)
Definition CoreErrorLocation_new0 (func : ErrFunc.t) (ref : RefPage.t) : CoreErrorLocation :=
  CoreErrorLocation_new func ref Field.Empty kNoIndex.

(** [CoreErrorLocation dot(Field sub_field, uint32_t sub_index = kNoIndex) const].
    The local [result] is threaded through the statements of the body;
    [reserve] changes the capacity only. *)
Definition dot (this : CoreErrorLocation) (sub_field : Field.t) (sub_index : N)
    : CoreErrorLocation :=
  let result := CoreErrorLocation_new0 (func_name this) (refpage this) in
  let result := set_field_path (field_path this) result in
  let result :=
    if Field.eq_dec (field_name this) Field.Empty then result
    else emplace_back (Path.mk (field_name this) (index this)) result in
  let result := set_field_name sub_field result in
  let result := set_index sub_index result in
  result.

(** [dot] called without an index. *)
Definition dot0 (this : CoreErrorLocation) (sub_field : Field.t) : CoreErrorLocation :=
  dot this sub_field kNoIndex.

(** ** Decimal output of an unsigned integer

    [out << n] for an unsigned [n] writes its digits in base ten, most
    significant first, without padding.  The digits are produced from the
    least significant one, each put in front of those already there. *)

Definition digit_char (d : N) : ascii := ascii_of_N (48 + d).

Fixpoint put_digits (fuel : nat) (n : N) (acc : string) : string :=
  let acc' := String (digit_char (n mod 10)) acc in
  match fuel with
  | O => acc'
  | S fuel' => if n / 10 =? 0 then acc' else put_digits fuel' (n / 10) acc'
  end.

(** A number has no more decimal digits than binary ones. *)
Definition to_decimal (n : N) : string :=
  put_digits (N.to_nat (N.size n)) n EmptyString.

(** Reading a numeral back: the value of a digit, and of a digit string
    by Horner's rule; [None] on any other character. *)
Definition digit_value (c : ascii) : option N :=
  let k := N_of_ascii c in
  if (48 <=? k) && (k <=? 57) then Some (k - 48) else None.

Fixpoint decimal_value_from (acc : N) (s : string) : option N :=
  match s with
  | EmptyString => Some acc
  | String c s' =>
      match digit_value c with
      | Some d => decimal_value_from (10 * acc + d) s'
      | None => None
      end
  end.

Definition decimal_value (s : string) : option N :=
  match s with
  | EmptyString => None
  | _ => decimal_value_from 0 s
  end.

(** A numeral is canonical when it is ["0"] or does not start with ['0']. *)
Definition canonical_numeral (s : string) : bool :=
  match s with
  | EmptyString => false
  | String c EmptyString => true
  | String c _ => negb (Ascii.eqb c "0"%char)
  end.

(** ** The output stream

    A [std::stringstream] that is only written to and then read with
    [str()] is the text written so far. *)

Definition ostream : Set := string.

Definition stream_init : ostream := EmptyString.

(** [out << s] for a string or a string literal *)
Definition put_string (out : ostream) (s : string) : ostream := (out ++ s)%string.

(** [out << n] for a [uint32_t] *)
Definition put_uint32 (out : ostream) (n : N) : ostream := (out ++ to_decimal n)%string.

(** [out.str()] *)
Definition str (out : ostream) : string := out.

Declare Scope stream_scope.
Delimit Scope stream_scope with stream.
Notation "out << s" := (put_string out s) (at level 50, left associativity) : stream_scope.
Notation "out <<# n" := (put_uint32 out n) (at level 50, left associativity) : stream_scope.

(** ** Enumeration-to-text tables

    The three overloads of [String] are declared in the header and defined
    elsewhere; the methods below are stated over any such tables. *)
Record StringTables : Set := mkTables {
  String_ErrFunc : ErrFunc.t -> string;
  String_RefPage : RefPage.t -> string;
  String_Field : Field.t -> string
}.

Section Rendering.

Variable tbl : StringTables.

(** [const std::string& StringFuncName() const { return String(func_name); }] *)
Definition StringFuncName (this : CoreErrorLocation) : string :=
  String_ErrFunc tbl (func_name this).

(** [const std::string& StringRefPage() const { return String(refpage); }] *)
Definition StringRefPage (this : CoreErrorLocation) : string :=
  String_RefPage tbl (refpage this).

(** [const std::string& StringField() const { return String(field_name); }] *)
Definition StringField (this : CoreErrorLocation) : string :=
  String_Field tbl (field_name this).

(** The body of the range-for loop of [Message], on one element [f]. *)
Definition Message_step (out : ostream) (f : Path.t) : ostream :=
  let out := (out << String_Field tbl (Path.field f))%stream in
  let out :=
    if negb (Path.index f =? kNoIndex)
    then (out << "[" <<# Path.index f << "]")%stream
    else out in
  (out << ".")%stream.

(** [std::string Message() const] *)
Definition Message (this : CoreErrorLocation) : string :=
  let out := stream_init in
  let out := (out << StringFuncName this << "(): ")%stream in
  let out := fold_left Message_step (field_path this) out in
  let out := (out << String_Field tbl (field_name this))%stream in
  let out :=
    if negb (index this =? kNoIndex)
    then (out << "[" <<# index this << "]")%stream
    else out in
  str out.

End Rendering.

(** Modelled from the spec: the bodies of the three [String] overloads,
    which the header only declares.  Every enumerator is given the text of
    its own identifier, as in the rendered examples of the specification,
    and the [Empty] enumerators the empty text, so that a location with no
    field set renders nothing after the prefix. *)
Definition spec_String_ErrFunc (f : ErrFunc.t) : string :=
  match f with
  | ErrFunc.Empty => EmptyString
  | ErrFunc.vkQueueSubmit => "vkQueueSubmit"
  | ErrFunc.vkQueueSubmit2KHR => "vkQueueSubmit2KHR"
  | ErrFunc.vkCmdSetEvent => "vkCmdSetEvent"
  | ErrFunc.vkCmdSetEvent2KHR => "vkCmdSetEvent2KHR"
  | ErrFunc.vkCmdResetEvent => "vkCmdResetEvent"
  | ErrFunc.vkCmdResetEvent2KHR => "vkCmdResetEvent2KHR"
  | ErrFunc.vkCmdPipelineBarrier => "vkCmdPipelineBarrier"
  | ErrFunc.vkCmdPipelineBarrier2KHR => "vkCmdPipelineBarrier2KHR"
  | ErrFunc.vkCmdWaitEvents => "vkCmdWaitEvents"
  | ErrFunc.vkCmdWaitEvents2KHR => "vkCmdWaitEvents2KHR"
  | ErrFunc.vkCmdWriteTimestamp2 => "vkCmdWriteTimestamp2"
  | ErrFunc.vkCmdWriteTimestamp2KHR => "vkCmdWriteTimestamp2KHR"
  | ErrFunc.vkCreateRenderPass => "vkCreateRenderPass"
  | ErrFunc.vkCreateRenderPass2 => "vkCreateRenderPass2"
  | ErrFunc.vkQueueBindSparse => "vkQueueBindSparse"
  | ErrFunc.vkSignalSemaphore => "vkSignalSemaphore"
  end.

Definition spec_String_RefPage (r : RefPage.t) : string :=
  match r with
  | RefPage.Empty => EmptyString
  | RefPage.VkMemoryBarrier => "VkMemoryBarrier"
  | RefPage.VkMemoryBarrier2KHR => "VkMemoryBarrier2KHR"
  | RefPage.VkBufferMemoryBarrier => "VkBufferMemoryBarrier"
  | RefPage.VkImageMemoryBarrier => "VkImageMemoryBarrier"
  | RefPage.VkBufferMemoryBarrier2KHR => "VkBufferMemoryBarrier2KHR"
  | RefPage.VkImageMemoryBarrier2KHR => "VkImageMemoryBarrier2KHR"
  | RefPage.VkSubmitInfo => "VkSubmitInfo"
  | RefPage.VkSubmitInfo2KHR => "VkSubmitInfo2KHR"
  | RefPage.VkCommandBufferSubmitInfoKHR => "VkCommandBufferSubmitInfoKHR"
  | RefPage.vkCmdSetEvent => "vkCmdSetEvent"
  | RefPage.vkCmdSetEvent2KHR => "vkCmdSetEvent2KHR"
  | RefPage.vkCmdResetEvent => "vkCmdResetEvent"
  | RefPage.vkCmdResetEvent2KHR => "vkCmdResetEvent2KHR"
  | RefPage.vkCmdPipelineBarrier => "vkCmdPipelineBarrier"
  | RefPage.vkCmdPipelineBarrier2KHR => "vkCmdPipelineBarrier2KHR"
  | RefPage.vkCmdWaitEvents => "vkCmdWaitEvents"
  | RefPage.vkCmdWaitEvents2KHR => "vkCmdWaitEvents2KHR"
  | RefPage.vkCmdWriteTimestamp2 => "vkCmdWriteTimestamp2"
  | RefPage.vkCmdWriteTimestamp2KHR => "vkCmdWriteTimestamp2KHR"
  | RefPage.VkSubpassDependency => "VkSubpassDependency"
  | RefPage.VkSubpassDependency2 => "VkSubpassDependency2"
  | RefPage.VkBindSparseInfo => "VkBindSparseInfo"
  | RefPage.VkSemaphoreSignalInfo => "VkSemaphoreSignalInfo"
  end.

Definition spec_String_Field (f : Field.t) : string :=
  match f with
  | Field.Empty => EmptyString
  | Field.oldLayout => "oldLayout"
  | Field.newLayout => "newLayout"
  | Field.image => "image"
  | Field.buffer => "buffer"
  | Field.pMemoryBarriers => "pMemoryBarriers"
  | Field.pBufferMemoryBarriers => "pBufferMemoryBarriers"
  | Field.pImageMemoryBarriers => "pImageMemoryBarriers"
  | Field.offset => "offset"
  | Field.size => "size"
  | Field.subresourceRange => "subresourceRange"
  | Field.srcAccessMask => "srcAccessMask"
  | Field.dstAccessMask => "dstAccessMask"
  | Field.srcStageMask => "srcStageMask"
  | Field.dstStageMask => "dstStageMask"
  | Field.pNext => "pNext"
  | Field.pWaitDstStageMask => "pWaitDstStageMask"
  | Field.pWaitSemaphores => "pWaitSemaphores"
  | Field.pSignalSemaphores => "pSignalSemaphores"
  | Field.pWaitSemaphoreInfos => "pWaitSemaphoreInfos"
  | Field.pWaitSemaphoreValues => "pWaitSemaphoreValues"
  | Field.pSignalSemaphoreInfos => "pSignalSemaphoreInfos"
  | Field.pSignalSemaphoreValues => "pSignalSemaphoreValues"
  | Field.stage => "stage"
  | Field.stageMask => "stageMask"
  | Field.value => "value"
  | Field.pCommandBuffers => "pCommandBuffers"
  | Field.pSubmits => "pSubmits"
  | Field.pCommandBufferInfos => "pCommandBufferInfos"
  | Field.semaphore => "semaphore"
  | Field.commandBuffer => "commandBuffer"
  | Field.dependencyFlags => "dependencyFlags"
  | Field.pDependencyInfo => "pDependencyInfo"
  | Field.pDependencyInfos => "pDependencyInfos"
  | Field.srcQueueFamilyIndex => "srcQueueFamilyIndex"
  | Field.dstQueueFamilyIndex => "dstQueueFamilyIndex"
  | Field.queryPool => "queryPool"
  | Field.pDependencies => "pDependencies"
  end.

Definition spec_tables : StringTables :=
  mkTables spec_String_ErrFunc spec_String_RefPage spec_String_Field.

Infix "+++" := String.append (at level 60, right associativity).

(** ** The rendering format, in the words of the specification *)

(** The bracketed index of a step: nothing for the sentinel, the decimal
    value between brackets otherwise. *)
Definition index_text (i : N) : string :=
  if i =? kNoIndex then EmptyString else "[" +++ to_decimal i +++ "]".

Section Format.

Variable tbl : StringTables.

(** A field of the path: its name, then its index if it has one. *)
Definition step_text (p : Path.t) : string :=
  String_Field tbl (Path.field p) +++ index_text (Path.index p).

(** The ancestry: every step followed by one separator. *)
Fixpoint ancestry_text (ps : list Path.t) : string :=
  match ps with
  | [] => EmptyString
  | p :: ps' => step_text p +++ "." +++ ancestry_text ps'
  end.

(** The step a location currently stands on. *)
Definition current_step (l : CoreErrorLocation) : Path.t :=
  Path.mk (field_name l) (index l).

(** The full path of a location: ancestry, then the current field. *)
Definition full_path (l : CoreErrorLocation) : list Path.t :=
  (field_path l ++ [current_step l])%list.

(** The prefix naming the function. *)
Definition prefix_text (l : CoreErrorLocation) : string :=
  String_ErrFunc tbl (func_name l) +++ "(): ".

(** The format as the specification words it: prefix, the ancestry steps
    each with its separator, the current field. *)
Definition render_spec (l : CoreErrorLocation) : string :=
  prefix_text l +++ ancestry_text (field_path l) +++ step_text (current_step l).

(** The same format as the fields of the full path joined by the
    separator: one between consecutive fields, none at either end. *)
Definition render_joined (l : CoreErrorLocation) : string :=
  prefix_text l +++ String.concat "." (map step_text (full_path l)).

End Format.

(** ** Chains of descents *)

(** A chain of descents, each step a sub-field and a sub-index. *)
Definition descend (l : CoreErrorLocation) (steps : list (Field.t * N)) : CoreErrorLocation :=
  fold_left (fun l s => dot l (fst s) (snd s)) steps l.

(** The locations derived from a root by descents, of any length and any
    branching: every node of the tree of descents under the root. *)
Inductive derived (root : CoreErrorLocation) : CoreErrorLocation -> Prop :=
| derived_root : derived root root
| derived_dot (l : CoreErrorLocation) (f : Field.t) (i : N) :
    derived root l -> derived root (dot l f i).

(** No step of the ancestry stands on the [Empty] field. *)
Definition ancestry_named (l : CoreErrorLocation) : Prop :=
  Forall (fun p => Path.field p <> Field.Empty) (field_path l).

(** ** Locations as objects in memory

    [dot] is a [const] method called through [this] and building a local
    [result].  To state what it leaves untouched, locations are placed in a
    store of objects, each holding its path by value; the method reads
    through [this] and writes to [result] only. *)

Definition addr : Set := nat.

Definition store : Set := list CoreErrorLocation.

Definition load (s : store) (a : addr) : option CoreErrorLocation := nth_error s a.

Fixpoint update (a : addr) (g : CoreErrorLocation -> CoreErrorLocation) (s : store) : store :=
  match s, a with
  | [], _ => []
  | x :: s', O => g x :: s'
  | x :: s', S a' => x :: update a' g s'
  end.

(** Computations on the store that may fault on a dangling address. *)
Definition M (A : Type) : Type := store -> option (A * store).

Definition ret {A : Type} (x : A) : M A := fun s => Some (x, s).

Definition bind {A B : Type} (m : M A) (k : A -> M B) : M B :=
  fun s => match m s with
           | Some (x, s') => k x s'
           | None => None
           end.

Notation "x <- m ;; k" := (bind m (fun x => k))
  (at level 61, m at next level, right associativity).
Notation "m ;;; k" := (bind m (fun _ => k))
  (at level 61, right associativity).

(** Reading a member through a pointer. *)
Definition read {A : Type} (a : addr) (proj : CoreErrorLocation -> A) : M A :=
  fun s => match load s a with
           | Some l => Some (proj l, s)
           | None => None
           end.

(** A new object. *)
Definition new (l : CoreErrorLocation) : M addr :=
  fun s => Some (List.length s, (s ++ [l])%list).

(** Writing to a member of an object. *)
Definition modify (a : addr) (g : CoreErrorLocation -> CoreErrorLocation) : M unit :=
  fun s => match load s a with
           | Some _ => Some (tt, update a g s)
           | None => None
           end.

(** [dot], statement by statement, on objects of the store. *)
Definition dot_at (this : addr) (sub_field : Field.t) (sub_index : N) : M addr :=
  fn <- read this func_name ;;
  rp <- read this refpage ;;
  result <- new (CoreErrorLocation_new0 fn rp) ;;
  fp <- read this field_path ;;
  modify result (set_field_path fp) ;;;
  f <- read this field_name ;;
  (if Field.eq_dec f Field.Empty then ret tt
   else i <- read this index ;;
        modify result (emplace_back (Path.mk f i))) ;;;
  modify result (set_field_name sub_field) ;;;
  modify result (set_index sub_index) ;;;
  ret result.

(** ** The adapter *)

(** What the template asks of its [VuidFunctor] parameter: it is built
    from the constructor's trailing arguments and called on a location. *)
Class VuidFunctor (F : Type) : Type := {
  Args : Type;
  construct : Args -> F;
  call : F -> CoreErrorLocation -> string
}.

(** [struct CoreErrorLocationVuidAdapter] *)
Record CoreErrorLocationVuidAdapter (F : Type) : Type := mkAdapter {
  loc : CoreErrorLocation;
  vuid_functor : F
}.

Arguments mkAdapter {F} _ _.
Arguments loc {F} _.
Arguments vuid_functor {F} _.

(** [s.c_str()]: a view of the characters of [s], sharing its storage. *)
Definition c_str (s : string) : string := s.

Section Adapter.

Variable tbl : StringTables.
Context {F : Type} `{VuidFunctor F}.

(** [CoreErrorLocationVuidAdapter(const CoreErrorLocation& loc_, const Args&... args)] *)
Definition CoreErrorLocationVuidAdapter_new (loc_ : CoreErrorLocation) (args : Args)
    : CoreErrorLocationVuidAdapter F :=
  mkAdapter loc_ (construct args).

(** [const char* FuncName() const] *)
Definition FuncName (this : CoreErrorLocationVuidAdapter F) : string :=
  let func_name := StringFuncName tbl (loc this) in
  c_str func_name.

(** [const char* Vuid() const] *)
Definition Vuid (this : CoreErrorLocationVuidAdapter F) : string :=
  let vuid := call (vuid_functor this) (loc this) in
  c_str vuid.

End Adapter.

(** A resolver in the manner of the header's comment: the diagnostic code
    is put together from the reference page and the field name. *)
Definition refpage_field_vuid (tbl : StringTables) (l : CoreErrorLocation) : string :=
  "VUID-" +++ StringRefPage tbl l +++ "-" +++ StringField tbl l.

#[export] Instance table_resolver : VuidFunctor StringTables := {
  Args := StringTables;
  construct := fun t => t;
  call := refpage_field_vuid
}.

(** ** Chains of calls on the store, and counting characters *)

(** A step of a chain as the [Path] entry it leaves behind. *)
Definition path_of_step (s : Field.t * N) : Path.t := Path.mk (fst s) (snd s).

(** [loc.dot(f1, i1).dot(f2, i2)...] on objects of the store: every call
    goes through the address of the object the previous one returned. *)
Fixpoint descend_at (this : addr) (steps : list (Field.t * N)) : M addr :=
  match steps with
  | [] => ret this
  | s :: steps' => r <- dot_at this (fst s) (snd s) ;; descend_at r steps'
  end.

(** The number of occurrences of a character in a text. *)
Fixpoint count_char (c : ascii) (s : string) : nat :=
  match s with
  | EmptyString => O
  | String c' s' => ((if Ascii.eqb c' c then 1 else 0) + count_char c s')%nat
  end.

(** * Properties *)

(** ** Text: append and join *)

Lemma append_assoc (a b c : string) : (a +++ b) +++ c = a +++ (b +++ c).
Proof. induction a as [|ch a IH]; simpl; [reflexivity | now rewrite IH]. Qed.

Lemma append_nil_r (a : string) : a +++ EmptyString = a.
Proof. induction a as [|ch a IH]; simpl; [reflexivity | now rewrite IH]. Qed.

(** ** Decimal numerals *)

Lemma digit_value_char (d : N) : d < 10 -> digit_value (digit_char d) = Some d.
Proof.
  intros Hd. unfold digit_value, digit_char.
  rewrite N_ascii_embedding by lia.
  replace (48 <=? 48 + d) with true by (symmetry; apply N.leb_le; lia).
  replace (48 + d <=? 57) with true by (symmetry; apply N.leb_le; lia).
  cbn [andb]. f_equal. lia.
Qed.

Lemma digit_char_nonzero (d : N) :
  d < 10 -> d <> 0 -> Ascii.eqb (digit_char d) "0"%char = false.
Proof.
  intros Hd Hnz. apply Ascii.eqb_neq. intros Heq.
  pose proof (digit_value_char d Hd) as Hv. rewrite Heq in Hv.
  vm_compute in Hv. injection Hv as Hv. congruence.
Qed.

Lemma put_digits_cons (fuel : nat) : forall n acc,
  exists c s, put_digits fuel n acc = String c s.
Proof.
  induction fuel as [|fuel IH]; intros n acc; simpl.
  - eauto.
  - destruct (n / 10 =? 0); eauto.
Qed.

Lemma div10_small (n : N) : n / 10 = 0 -> n < 10.
Proof. intros H. apply N.div_small_iff in H; lia. Qed.

Lemma div10_halves (n : N) (k : nat) :
  n < 2 ^ N.of_nat (S k) -> n / 10 < 2 ^ N.of_nat k.
Proof.
  intros H. rewrite Nat2N.inj_succ, N.pow_succ_r' in H.
  apply N.Div0.div_lt_upper_bound. lia.
Qed.

(** Reading the digits written for [n] in front of [rest] continues the
    reading of [rest] from the accumulator shifted by those digits. *)
Lemma put_digits_value (fuel : nat) : forall n rest a,
  n < 2 ^ N.of_nat fuel ->
  exists k, decimal_value_from a (put_digits fuel n rest)
            = decimal_value_from (a * 10 ^ k + n) rest.
Proof.
  induction fuel as [|fuel IH]; intros n rest a Hn.
  - simpl in Hn. assert (n = 0) by lia. subst n.
    exists 1. cbn [put_digits decimal_value_from].
    rewrite digit_value_char by (vm_compute; reflexivity).
    f_equal. change (0 mod 10) with 0. lia.
  - cbn [put_digits]. destruct (n / 10 =? 0) eqn:Hq.
    + apply N.eqb_eq, div10_small in Hq.
      exists 1. cbn [decimal_value_from].
      rewrite N.mod_small by exact Hq.
      rewrite digit_value_char by exact Hq. f_equal. lia.
    + destruct (IH (n / 10) (String (digit_char (n mod 10)) rest) a
                  (div10_halves n fuel Hn)) as [k Hk].
      exists (N.succ k). rewrite Hk. cbn [decimal_value_from].
      rewrite digit_value_char by (apply N.mod_lt; lia).
      f_equal. rewrite N.pow_succ_r'.
      pose proof (N.div_mod n 10 ltac:(lia)) as Hdm. lia.
Qed.

Lemma put_digits_leading (fuel : nat) : forall n rest,
  n < 2 ^ N.of_nat fuel -> n <> 0 ->
  exists c s, put_digits fuel n rest = String c s /\ Ascii.eqb c "0"%char = false.
Proof.
  induction fuel as [|fuel IH]; intros n rest Hn Hnz.
  - simpl in Hn. lia.
  - cbn [put_digits]. destruct (n / 10 =? 0) eqn:Hq.
    + apply N.eqb_eq, div10_small in Hq.
      do 2 eexists; split; [reflexivity|].
      rewrite N.mod_small by exact Hq. now apply digit_char_nonzero.
    + apply N.eqb_neq in Hq.
      apply IH; [now apply div10_halves | exact Hq].
Qed.

Lemma size_bound (n : N) : n < 2 ^ N.of_nat (N.to_nat (N.size n)).
Proof. rewrite N2Nat.id. apply N.size_gt. Qed.

Lemma to_decimal_value (n : N) : decimal_value (to_decimal n) = Some n.
Proof.
  unfold to_decimal.
  destruct (put_digits_cons (N.to_nat (N.size n)) n EmptyString) as (c & s & Hcs).
  destruct (put_digits_value _ n EmptyString 0 (size_bound n)) as [k Hk].
  unfold decimal_value. rewrite Hcs in *. rewrite Hk. simpl. f_equal.
Qed.

Lemma to_decimal_canonical (n : N) : canonical_numeral (to_decimal n) = true.
Proof.
  destruct (N.eq_dec n 0) as [->|Hnz]; [reflexivity|].
  unfold to_decimal.
  destruct (put_digits_leading _ n EmptyString (size_bound n) Hnz) as (c & s & Hcs & Hc).
  rewrite Hcs. simpl. destruct s; [reflexivity|]. now rewrite Hc.
Qed.

(** ** Rendering *)

#[local] Ltac stream_unfold :=
  unfold put_string, put_uint32, str, stream_init, step_text, index_text.

Section RenderingFacts.

Variable tbl : StringTables.

Lemma Message_step_text (out : ostream) (p : Path.t) :
  Message_step tbl out p = out +++ step_text tbl p +++ ".".
Proof.
  unfold Message_step. stream_unfold.
  destruct (Path.index p =? kNoIndex); cbn [negb];
    repeat rewrite append_assoc; reflexivity.
Qed.

Lemma fold_Message_step (ps : list Path.t) : forall out,
  fold_left (Message_step tbl) ps out = out +++ ancestry_text tbl ps.
Proof.
  induction ps as [|p ps IH]; intros out; cbn [fold_left ancestry_text].
  - now rewrite append_nil_r.
  - rewrite IH, Message_step_text. now repeat rewrite append_assoc.
Qed.

Lemma Message_render_spec (l : CoreErrorLocation) :
  Message tbl l = render_spec tbl l.
Proof.
  unfold Message, render_spec, prefix_text, StringFuncName, current_step.
  rewrite fold_Message_step. stream_unfold. cbn [Path.field Path.index].
  destruct (index l =? kNoIndex); cbn [negb String.append];
    repeat rewrite append_assoc; repeat rewrite append_nil_r; reflexivity.
Qed.

Lemma concat_snoc (ps : list Path.t) (c : Path.t) :
  String.concat "." (map (step_text tbl) (ps ++ [c]))
  = ancestry_text tbl ps +++ step_text tbl c.
Proof.
  induction ps as [|p ps IH]; [reflexivity|].
  cbn [app map ancestry_text]. cbn [app map] in IH.
  destruct (map (step_text tbl) (ps ++ [c])) as [|x xs] eqn:Hm.
  - destruct ps; discriminate Hm.
  - cbn [String.concat]. cbn [String.concat] in IH. rewrite IH.
    now repeat rewrite append_assoc.
Qed.

Lemma render_spec_joined (l : CoreErrorLocation) :
  render_spec tbl l = render_joined tbl l.
Proof.
  unfold render_spec, render_joined, full_path. now rewrite concat_snoc.
Qed.

End RenderingFacts.

(** ** Descent *)

Lemma dot_func_name l f i : func_name (dot l f i) = func_name l.
Proof. unfold dot. now destruct (Field.eq_dec (field_name l) Field.Empty). Qed.

Lemma dot_refpage l f i : refpage (dot l f i) = refpage l.
Proof. unfold dot. now destruct (Field.eq_dec (field_name l) Field.Empty). Qed.

Lemma dot_field_name l f i : field_name (dot l f i) = f.
Proof. reflexivity. Qed.

Lemma dot_index l f i : index (dot l f i) = i.
Proof. reflexivity. Qed.

Lemma dot_field_path_named l f i :
  field_name l <> Field.Empty ->
  field_path (dot l f i) = (field_path l ++ [current_step l])%list.
Proof.
  intros Hne. unfold dot.
  now destruct (Field.eq_dec (field_name l) Field.Empty).
Qed.

Lemma dot_field_path_empty l f i :
  field_name l = Field.Empty -> field_path (dot l f i) = field_path l.
Proof.
  intros He. unfold dot.
  now destruct (Field.eq_dec (field_name l) Field.Empty).
Qed.

Lemma snoc_neq {A : Type} (xs : list A) (x : A) : xs <> (xs ++ [x])%list.
Proof.
  intros H. apply (f_equal (@List.length A)) in H.
  rewrite length_app in H. simpl in H. lia.
Qed.

(** C1: [dot] returns a location with the function and reference page of
    the one it is called on, with the given sub-field and sub-index as its
    current field and index, and with an ancestry that is the caller's
    ancestry followed by the caller's (current field, current index) if and
    only if the caller's current field is not [Empty], and the caller's
    ancestry as it is if and only if that field is [Empty]. *)
Theorem dot_builds_child (L : CoreErrorLocation) (F : Field.t) (I : N) :
  func_name (dot L F I) = func_name L /\
  refpage (dot L F I) = refpage L /\
  field_name (dot L F I) = F /\
  index (dot L F I) = I /\
  (field_path (dot L F I)
     = (field_path L ++ [Path.mk (field_name L) (index L)])%list
   <-> field_name L <> Field.Empty) /\
  (field_path (dot L F I) = field_path L <-> field_name L = Field.Empty).
Proof.
  repeat split.
  - apply dot_func_name.
  - apply dot_refpage.
  - intros Hp He. rewrite (dot_field_path_empty L F I He) in Hp.
    exact (snoc_neq _ _ Hp).
  - apply dot_field_path_named.
  - intros Hp. destruct (Field.eq_dec (field_name L) Field.Empty) as [He|Hne];
      [exact He|].
    rewrite (dot_field_path_named L F I Hne) in Hp.
    symmetry in Hp. destruct (snoc_neq _ _ Hp).
  - apply dot_field_path_empty.
Qed.

(** C2: [Message] is the function's name, then ["(): "], then every step of
    the ancestry in order as its field's name, its bracketed index unless
    the index is the sentinel, and one ["."], then the current field's
    name with its bracketed index unless that is the sentinel; equally, it
    is the prefix followed by the fields of the full path joined by ["."],
    one separator between consecutive fields and none after the last. *)
Theorem Message_format (tbl : StringTables) (L : CoreErrorLocation) :
  Message tbl L
    = String_ErrFunc tbl (func_name L) +++ "(): "
      +++ ancestry_text tbl (field_path L)
      +++ String_Field tbl (field_name L)
      +++ (if index L =? kNoIndex then EmptyString
           else "[" +++ to_decimal (index L) +++ "]")
  /\ (forall p ps,
        ancestry_text tbl (p :: ps)
          = String_Field tbl (Path.field p)
            +++ (if Path.index p =? kNoIndex then EmptyString
                 else "[" +++ to_decimal (Path.index p) +++ "]")
            +++ "." +++ ancestry_text tbl ps)
  /\ ancestry_text tbl [] = EmptyString
  /\ Message tbl L
       = String_ErrFunc tbl (func_name L) +++ "(): "
         +++ String.concat "." (map (step_text tbl) (full_path L)).
Proof.
  split; [|split; [|split]].
  - rewrite Message_render_spec. unfold render_spec, prefix_text, step_text,
      current_step, index_text. cbn [Path.field Path.index].
    now repeat rewrite append_assoc.
  - intros p ps. cbn [ancestry_text]. unfold step_text, index_text.
    now repeat rewrite append_assoc.
  - reflexivity.
  - rewrite Message_render_spec, render_spec_joined.
    unfold render_joined, prefix_text. now repeat rewrite append_assoc.
Qed.

(** ** Descent on objects of the store *)

Lemma load_lt (s : store) (a : addr) (l : CoreErrorLocation) :
  load s a = Some l -> (a < List.length s)%nat.
Proof. intros H. apply nth_error_Some. unfold load in H. congruence. Qed.

Lemma load_app_old (s t : store) (a : addr) :
  (a < List.length s)%nat -> load (s ++ t) a = load s a.
Proof. intros H. unfold load. now apply nth_error_app1. Qed.

Lemma load_app_new (s : store) (l : CoreErrorLocation) :
  load (s ++ [l]) (List.length s) = Some l.
Proof.
  unfold load. rewrite nth_error_app2 by lia. now rewrite Nat.sub_diag.
Qed.

Lemma update_app_new (s : store) (l : CoreErrorLocation) g :
  update (List.length s) g (s ++ [l]) = (s ++ [g l])%list.
Proof. induction s as [|x s IH]; simpl; [reflexivity | now rewrite IH]. Qed.

Lemma load_update_other (s : store) (a b : addr) g :
  a <> b -> load (update a g s) b = load s b.
Proof.
  revert a b. induction s as [|x s IH]; intros a b Hab; [now destruct a|].
  destruct a as [|a], b as [|b]; simpl; try reflexivity; try congruence.
  apply IH. congruence.
Qed.

Lemma modify_new (s : store) (l : CoreErrorLocation) g :
  modify (List.length s) g (s ++ [l]) = Some (tt, (s ++ [g l])%list).
Proof. unfold modify. now rewrite load_app_new, update_app_new. Qed.

Lemma read_old {A : Type} (s t : store) (a : addr) (l : CoreErrorLocation)
    (proj : CoreErrorLocation -> A) :
  load s a = Some l -> read a proj (s ++ t) = Some (proj l, (s ++ t)%list).
Proof.
  intros H. unfold read. rewrite load_app_old by (eapply load_lt; eauto).
  now rewrite H.
Qed.

(** On a store holding [L] at [this], the method faults nowhere, adds one
    object, the pure [dot L], and changes nothing else. *)
Lemma dot_at_run (s : store) (this : addr) (L : CoreErrorLocation) f i :
  load s this = Some L ->
  dot_at this f i s = Some (List.length s, (s ++ [dot L f i])%list).
Proof.
  intros H. unfold dot_at, bind.
  unfold read at 1. rewrite H.
  unfold read at 1. rewrite H.
  unfold new.
  rewrite (read_old s _ this L field_path H).
  rewrite modify_new.
  rewrite (read_old s _ this L field_name H).
  unfold dot.
  destruct (Field.eq_dec (field_name L) Field.Empty) as [He|Hne].
  - unfold ret at 1. rewrite modify_new, modify_new. reflexivity.
  - rewrite (read_old s _ this L index H).
    rewrite modify_new, modify_new, modify_new. reflexivity.
Qed.

(** C3: descent does not mutate.  With [L] held at address [a], calling
    [dot] through [a] for [A] and then again for [B] faults nowhere;
    afterwards [a] still holds [L], with every member as before, and so
    does every object that was there; the two results are distinct new
    objects, each equal to the descent computed from [L] alone; and as each
    object holds its path by value, a later write to any one of the three
    leaves the other two as they are. *)
Theorem dot_does_not_mutate (s : store) (a : addr) (L : CoreErrorLocation)
    (A : Field.t) (iA : N) (B : Field.t) (iB : N) :
  load s a = Some L ->
  exists rA rB s1 s2,
    dot_at a A iA s = Some (rA, s1) /\
    dot_at a B iB s1 = Some (rB, s2) /\
    load s1 a = Some L /\
    load s2 a = Some L /\
    load s1 rA = Some (dot L A iA) /\
    load s2 rA = Some (dot L A iA) /\
    load s2 rB = Some (dot L B iB) /\
    rA <> a /\ rB <> a /\ rA <> rB /\
    (forall b, (b < List.length s)%nat -> load s2 b = load s b) /\
    (forall g, load (update rA g s2) a = Some L /\
               load (update rA g s2) rB = Some (dot L B iB)) /\
    (forall g, load (update rB g s2) a = Some L /\
               load (update rB g s2) rA = Some (dot L A iA)) /\
    (forall g, load (update a g s2) rA = Some (dot L A iA) /\
               load (update a g s2) rB = Some (dot L B iB)).
Proof.
  intros Ha.
  pose proof (load_lt s a L Ha) as Hlt.
  set (s1 := (s ++ [dot L A iA])%list).
  set (s2 := (s1 ++ [dot L B iB])%list).
  assert (Hlen1 : List.length s1 = S (List.length s)).
  { unfold s1. rewrite length_app. simpl. lia. }
  assert (Ha1 : load s1 a = Some L).
  { unfold s1. now rewrite load_app_old. }
  assert (Ha2 : load s2 a = Some L).
  { unfold s2. rewrite load_app_old by lia. exact Ha1. }
  assert (HA1 : load s1 (List.length s) = Some (dot L A iA)).
  { apply load_app_new. }
  assert (HA2 : load s2 (List.length s) = Some (dot L A iA)).
  { unfold s2. rewrite load_app_old by lia. exact HA1. }
  assert (HB2 : load s2 (List.length s1) = Some (dot L B iB)).
  { apply load_app_new. }
  exists (List.length s), (List.length s1), s1, s2.
  split; [now apply dot_at_run|].
  split; [now apply dot_at_run|].
  repeat (split; [first [assumption | lia]|]).
  split.
  { intros b Hb. unfold s2, s1. now rewrite !load_app_old by (try rewrite length_app; simpl; lia). }
  repeat split; intros; rewrite load_update_other by lia; assumption.
Qed.

(** ** Invariants of derived locations *)

Lemma derived_identity (root l : CoreErrorLocation) :
  derived root l -> func_name l = func_name root /\ refpage l = refpage root.
Proof.
  induction 1 as [|l f i _ [IHf IHr]]; [now split|].
  now rewrite dot_func_name, dot_refpage.
Qed.

Lemma descend_derived (root : CoreErrorLocation) (steps : list (Field.t * N)) :
  derived root (descend root steps).
Proof.
  unfold descend. generalize (derived_root root).
  generalize root at 2 4 as l.
  induction steps as [|[f i] steps IH]; intros l Hl; [exact Hl|].
  cbn [fold_left]. apply IH. now constructor.
Qed.

(** C4: every location derived from a constructed root by descents, of any
    length and any branching, has the function and the reference page the
    root was constructed with. *)
Theorem derived_keeps_identity (func : ErrFunc.t) (ref : RefPage.t)
    (f : Field.t) (i : N) (L : CoreErrorLocation) :
  derived (CoreErrorLocation_new func ref f i) L ->
  func_name L = func /\ refpage L = ref.
Proof. intros H. exact (derived_identity _ _ H). Qed.

Lemma dot_ancestry_named (l : CoreErrorLocation) f i :
  ancestry_named l -> ancestry_named (dot l f i).
Proof.
  unfold ancestry_named. intros Hl.
  destruct (Field.eq_dec (field_name l) Field.Empty) as [He|Hne].
  - now rewrite dot_field_path_empty.
  - rewrite dot_field_path_named by exact Hne.
    apply Forall_app. split; [exact Hl|]. now repeat constructor.
Qed.

(** C5: the ancestry of a location derived from a constructed root by
    descents has no step on the [Empty] field; and the child of a root
    constructed with no field has an empty ancestry, whatever index the
    root was given. *)
Theorem derived_ancestry_named (func : ErrFunc.t) (ref : RefPage.t)
    (f : Field.t) (i : N) (L : CoreErrorLocation) :
  derived (CoreErrorLocation_new func ref f i) L ->
  Forall (fun p => Path.field p <> Field.Empty) (field_path L) /\
  (forall f' i', field_path (dot (CoreErrorLocation_new func ref Field.Empty i) f' i') = []) /\
  (forall f' i', field_path (dot (CoreErrorLocation_new0 func ref) f' i') = []).
Proof.
  intros H. split; [|split; reflexivity].
  change (ancestry_named L).
  induction H as [|l f' i' _ IH]; [constructor | now apply dot_ancestry_named].
Qed.

(** ** Indices in the rendering *)

Lemma Message_without_index (tbl : StringTables) (l : CoreErrorLocation) :
  Message tbl (set_index kNoIndex l)
  = prefix_text tbl l +++ ancestry_text tbl (field_path l)
    +++ String_Field tbl (field_name l).
Proof.
  rewrite Message_render_spec. unfold render_spec, prefix_text, step_text,
    current_step, index_text, set_index.
  cbn [func_name field_path field_name index Path.field Path.index].
  rewrite N.eqb_refl. now rewrite append_nil_r.
Qed.

(** C6: the sentinel is the largest unsigned 32-bit integer, [2^32 - 1];
    in the rendering, a step of the ancestry whose index is the sentinel
    gives its name and the separator with no bracket, and any other index
    gives ["[" value "]"] between them; the same holds of the current
    field, which closes the rendering; and the value is printed in
    decimal: the digits written read back as the index, and form a numeral
    with no leading zero. *)
Theorem index_rendering (tbl : StringTables) (L : CoreErrorLocation)
    (out : ostream) (p : Path.t) (f : Field.t) (i : N) :
  (kNoIndex = 2 ^ 32 - 1 /\ is_uint32 kNoIndex /\
   forall n, is_uint32 n -> n <= kNoIndex) /\
  Message_step tbl out (Path.mk f kNoIndex) = out +++ String_Field tbl f +++ "." /\
  Message_step tbl out p
    = out +++ String_Field tbl (Path.field p)
      +++ (if Path.index p =? kNoIndex then EmptyString
           else "[" +++ to_decimal (Path.index p) +++ "]")
      +++ "." /\
  Message tbl (set_index kNoIndex L)
    = String_ErrFunc tbl (func_name L) +++ "(): "
      +++ ancestry_text tbl (field_path L) +++ String_Field tbl (field_name L) /\
  Message tbl L
    = Message tbl (set_index kNoIndex L)
      +++ (if index L =? kNoIndex then EmptyString
           else "[" +++ to_decimal (index L) +++ "]") /\
  decimal_value (to_decimal i) = Some i /\
  canonical_numeral (to_decimal i) = true.
Proof.
  split; [|split; [|split; [|split; [|split; [|split]]]]].
  - split; [reflexivity|]. split; [reflexivity|].
    unfold is_uint32, kNoIndex, uint32_max. intros n Hn.
    change (2 ^ 32) with 4294967296 in *. lia.
  - rewrite Message_step_text. unfold step_text, index_text.
    cbn [Path.field Path.index]. rewrite N.eqb_refl.
    now rewrite append_assoc.
  - rewrite Message_step_text. unfold step_text, index_text.
    now repeat rewrite append_assoc.
  - rewrite Message_without_index. unfold prefix_text.
    now repeat rewrite append_assoc.
  - rewrite Message_without_index, Message_render_spec.
    unfold render_spec, step_text, current_step, index_text.
    cbn [Path.field Path.index]. now repeat rewrite append_assoc.
  - apply to_decimal_value.
  - apply to_decimal_canonical.
Qed.

(** C7: with a table that gives the [Empty] field the empty text, a
    freshly constructed location with no field set renders as the
    function's name followed by ["(): "] and nothing else, for every
    function and reference page; [Message] is a total function, so the
    rendering always exists. *)
Theorem fresh_location_message (tbl : StringTables)
    (func : ErrFunc.t) (ref : RefPage.t) :
  String_Field tbl Field.Empty = EmptyString ->
  Message tbl (CoreErrorLocation_new0 func ref) = String_ErrFunc tbl func +++ "(): ".
Proof.
  intros HE. rewrite Message_render_spec.
  unfold render_spec, prefix_text, step_text, current_step, index_text,
    CoreErrorLocation_new0, CoreErrorLocation_new.
  cbn [func_name field_path field_name index Path.field Path.index ancestry_text].
  rewrite HE, N.eqb_refl. cbn [String.append].
  now rewrite append_assoc.
Qed.

(** C8: with a table that gives [vkCmdPipelineBarrier],
    [pImageMemoryBarriers] and [srcAccessMask] the text of their
    identifiers, the location built for [vkCmdPipelineBarrier] and
    [VkImageMemoryBarrier], descended into [pImageMemoryBarriers] at 42 and
    then into [srcAccessMask], renders as
    ["vkCmdPipelineBarrier(): pImageMemoryBarriers[42].srcAccessMask"]. *)
Theorem pipeline_barrier_scenario (tbl : StringTables) :
  String_ErrFunc tbl ErrFunc.vkCmdPipelineBarrier = "vkCmdPipelineBarrier"%string ->
  String_Field tbl Field.pImageMemoryBarriers = "pImageMemoryBarriers"%string ->
  String_Field tbl Field.srcAccessMask = "srcAccessMask"%string ->
  Message tbl
    (dot0 (dot (CoreErrorLocation_new0 ErrFunc.vkCmdPipelineBarrier
                  RefPage.VkImageMemoryBarrier)
               Field.pImageMemoryBarriers 42)
          Field.srcAccessMask)
  = "vkCmdPipelineBarrier(): pImageMemoryBarriers[42].srcAccessMask"%string.
Proof.
  intros Hfunc Harr Hmask.
  match goal with |- Message _ ?l = _ =>
    replace l with (mkLoc ErrFunc.vkCmdPipelineBarrier RefPage.VkImageMemoryBarrier
                      Field.srcAccessMask kNoIndex
                      [Path.mk Field.pImageMemoryBarriers 42])
      by (vm_compute; reflexivity)
  end.
  rewrite Message_render_spec.
  unfold render_spec, prefix_text, step_text, current_step.
  cbn [func_name field_name index field_path Path.field Path.index ancestry_text].
  unfold step_text. cbn [Path.field Path.index].
  rewrite Hfunc, Harr, Hmask. vm_compute. reflexivity.
Qed.

(** C9: the adapter's function-name view is the text the table gives for
    the function of the location it holds, and its diagnostic-code view is
    what the resolver returns on that location, both as they are; an
    adapter built from a location and the resolver's arguments holds that
    location and the resolver built from those arguments. *)
Theorem adapter_passes_through (tbl : StringTables) (F : Type) (R : VuidFunctor F)
    (a : CoreErrorLocationVuidAdapter F) (l : CoreErrorLocation) (args : Args) :
  FuncName tbl a = String_ErrFunc tbl (func_name (loc a)) /\
  Vuid a = call (vuid_functor a) (loc a) /\
  FuncName tbl (CoreErrorLocationVuidAdapter_new l args)
    = String_ErrFunc tbl (func_name l) /\
  Vuid (CoreErrorLocationVuidAdapter_new l args) = call (construct args) l.
Proof. repeat split. Qed.

(** ** An index on the [Empty] field *)

Lemma dot_forgets_index (l : CoreErrorLocation) (j : N) f i :
  field_name l = Field.Empty -> dot (set_index j l) f i = dot l f i.
Proof.
  intros He. unfold dot, set_index.
  cbn [func_name refpage field_name index field_path]. rewrite He.
  now destruct (Field.eq_dec Field.Empty Field.Empty).
Qed.

Lemma descend_forgets_index (l : CoreErrorLocation) (j : N) steps :
  field_name l = Field.Empty -> steps <> [] ->
  descend (set_index j l) steps = descend l steps.
Proof.
  intros He Hs. destruct steps as [|[f i] steps]; [now destruct Hs|].
  unfold descend. cbn [fold_left fst snd]. now rewrite dot_forgets_index.
Qed.

(** C10: for a location whose current field is [Empty] and whose index is
    not the sentinel, descent drops the index: the child's ancestry is the
    parent's, nothing appended; the child, every further descendant and
    their renderings are the same whatever that index was; yet the
    location itself renders the bracketed index after the prefix, the
    ancestry and the text of the [Empty] field. *)
Theorem empty_field_index_dropped (tbl : StringTables) (L : CoreErrorLocation) :
  field_name L = Field.Empty -> index L <> kNoIndex ->
  (forall f i, field_path (dot L f i) = field_path L) /\
  (forall j f i, dot (set_index j L) f i = dot L f i) /\
  (forall j steps, steps <> [] ->
     descend (set_index j L) steps = descend L steps /\
     Message tbl (descend (set_index j L) steps) = Message tbl (descend L steps)) /\
  Message tbl L
    = String_ErrFunc tbl (func_name L) +++ "(): "
      +++ ancestry_text tbl (field_path L)
      +++ String_Field tbl Field.Empty
      +++ "[" +++ to_decimal (index L) +++ "]".
Proof.
  intros He Hi. split; [|split; [|split]].
  - intros f i. now apply dot_field_path_empty.
  - intros j f i. now apply dot_forgets_index.
  - intros j steps Hs. rewrite descend_forgets_index by assumption. now split.
  - rewrite Message_render_spec.
    unfold render_spec, prefix_text, step_text, current_step, index_text.
    cbn [Path.field Path.index]. rewrite He.
    apply N.eqb_neq in Hi. rewrite Hi.
    now repeat rewrite append_assoc.
Qed.

(** ** The scenarios of the specification, on the modelled tables *)

Definition wait_events_base : CoreErrorLocation :=
  CoreErrorLocation_new ErrFunc.vkCmdWaitEvents RefPage.Empty Field.pMemoryBarriers 3.

Definition queue_submit_root : CoreErrorLocation :=
  CoreErrorLocation_new0 ErrFunc.vkQueueSubmit RefPage.VkSubmitInfo.

Definition stray_index_root : CoreErrorLocation :=
  CoreErrorLocation_new ErrFunc.vkCmdPipelineBarrier RefPage.VkImageMemoryBarrier
    Field.Empty 7.

Example queue_submit_scenario :
  Message spec_tables (dot queue_submit_root Field.pCommandBuffers 0)
  = "vkQueueSubmit(): pCommandBuffers[0]"%string.
Proof. vm_compute. reflexivity. Qed.

Example sibling_scenario :
  Message spec_tables (dot0 wait_events_base Field.srcAccessMask)
    = "vkCmdWaitEvents(): pMemoryBarriers[3].srcAccessMask"%string /\
  Message spec_tables (dot0 wait_events_base Field.dstAccessMask)
    = "vkCmdWaitEvents(): pMemoryBarriers[3].dstAccessMask"%string.
Proof. split; vm_compute; reflexivity. Qed.

Example sentinel_index_example :
  Message spec_tables
    (dot0 (dot (dot0 queue_submit_root Field.pSubmits) Field.pCommandBufferInfos kNoIndex)
          Field.commandBuffer)
  = "vkQueueSubmit(): pSubmits.pCommandBufferInfos.commandBuffer"%string.
Proof. vm_compute. reflexivity. Qed.

(** A descent into the [Empty] field: the last separator stands between
    the last step of the ancestry and the current field, whose text is
    empty. *)
Example empty_leaf_example :
  Message spec_tables (dot0 (dot queue_submit_root Field.pSubmits 2) Field.Empty)
  = "vkQueueSubmit(): pSubmits[2]."%string.
Proof. vm_compute. reflexivity. Qed.

Example largest_index_example :
  Message spec_tables (dot queue_submit_root Field.pSubmits 4294967294)
  = "vkQueueSubmit(): pSubmits[4294967294]"%string.
Proof. vm_compute. reflexivity. Qed.

(** ** The properties at concrete locations *)

(** Two sibling descents from the location of the third scenario. *)
Lemma dot_does_not_mutate_witness :
  load [wait_events_base] 0%nat = Some wait_events_base /\
  exists rA rB s1 s2,
    dot_at 0%nat Field.srcAccessMask kNoIndex [wait_events_base] = Some (rA, s1) /\
    dot_at 0%nat Field.dstAccessMask kNoIndex s1 = Some (rB, s2) /\
    load s2 0%nat = Some wait_events_base /\
    load s2 rA = Some (dot0 wait_events_base Field.srcAccessMask) /\
    load s2 rB = Some (dot0 wait_events_base Field.dstAccessMask) /\
    rA <> rB.
Proof.
  split; [reflexivity|].
  destruct (dot_does_not_mutate [wait_events_base] 0%nat wait_events_base
              Field.srcAccessMask kNoIndex Field.dstAccessMask kNoIndex eq_refl)
    as (rA & rB & s1 & s2 & H1 & H2 & _ & H3 & _ & H4 & H5 & _ & _ & H6 & _).
  exists rA, rB, s1, s2. repeat split; assumption.
Defined.

(** A chain of two descents under [vkQueueSubmit]. *)
Lemma derived_keeps_identity_witness :
  derived queue_submit_root
    (dot0 (dot queue_submit_root Field.pCommandBuffers 0) Field.commandBuffer) /\
  func_name (dot0 (dot queue_submit_root Field.pCommandBuffers 0) Field.commandBuffer)
    = ErrFunc.vkQueueSubmit /\
  refpage (dot0 (dot queue_submit_root Field.pCommandBuffers 0) Field.commandBuffer)
    = RefPage.VkSubmitInfo.
Proof.
  assert (H : derived queue_submit_root
                (dot0 (dot queue_submit_root Field.pCommandBuffers 0)
                      Field.commandBuffer))
    by (unfold dot0; repeat constructor).
  split; [exact H|].
  exact (derived_keeps_identity ErrFunc.vkQueueSubmit RefPage.VkSubmitInfo
           Field.Empty kNoIndex _ H).
Defined.

(** A chain that passes through the [Empty] field. *)
Lemma derived_ancestry_named_witness :
  derived wait_events_base
    (dot0 (dot wait_events_base Field.Empty 5) Field.srcAccessMask) /\
  Forall (fun p => Path.field p <> Field.Empty)
    (field_path (dot0 (dot wait_events_base Field.Empty 5) Field.srcAccessMask)).
Proof.
  assert (H : derived wait_events_base
                (dot0 (dot wait_events_base Field.Empty 5) Field.srcAccessMask))
    by (unfold dot0; repeat constructor).
  split; [exact H|].
  exact (proj1 (derived_ancestry_named ErrFunc.vkCmdWaitEvents RefPage.Empty
                  Field.pMemoryBarriers 3 _ H)).
Defined.

(** A fresh location on the modelled tables. *)
Lemma fresh_location_message_witness :
  String_Field spec_tables Field.Empty = EmptyString /\
  Message spec_tables (CoreErrorLocation_new0 ErrFunc.vkQueueSubmit RefPage.VkSubmitInfo)
    = "vkQueueSubmit(): "%string.
Proof.
  split; [reflexivity|].
  exact (fresh_location_message spec_tables ErrFunc.vkQueueSubmit
           RefPage.VkSubmitInfo eq_refl).
Defined.

(** The first scenario on the modelled tables. *)
Lemma pipeline_barrier_scenario_witness :
  String_ErrFunc spec_tables ErrFunc.vkCmdPipelineBarrier = "vkCmdPipelineBarrier"%string /\
  String_Field spec_tables Field.pImageMemoryBarriers = "pImageMemoryBarriers"%string /\
  String_Field spec_tables Field.srcAccessMask = "srcAccessMask"%string /\
  Message spec_tables
    (dot0 (dot (CoreErrorLocation_new0 ErrFunc.vkCmdPipelineBarrier
                  RefPage.VkImageMemoryBarrier)
               Field.pImageMemoryBarriers 42)
          Field.srcAccessMask)
  = "vkCmdPipelineBarrier(): pImageMemoryBarriers[42].srcAccessMask"%string.
Proof.
  repeat (split; [reflexivity|]).
  exact (pipeline_barrier_scenario spec_tables eq_refl eq_refl eq_refl).
Defined.

(** A root constructed with no field and the index 7. *)
Lemma empty_field_index_dropped_witness :
  field_name stray_index_root = Field.Empty /\
  index stray_index_root <> kNoIndex /\
  field_path (dot0 stray_index_root Field.srcAccessMask) = [] /\
  Message spec_tables (dot0 (set_index 9 stray_index_root) Field.srcAccessMask)
    = Message spec_tables (dot0 stray_index_root Field.srcAccessMask) /\
  Message spec_tables stray_index_root = "vkCmdPipelineBarrier(): [7]"%string.
Proof.
  assert (Hi : index stray_index_root <> kNoIndex)
    by (intros H; vm_compute in H; discriminate H).
  destruct (empty_field_index_dropped spec_tables stray_index_root eq_refl Hi)
    as (H1 & H2 & H3 & H4).
  split; [reflexivity|]. split; [exact Hi|].
  split; [exact (H1 Field.srcAccessMask kNoIndex)|].
  split; [|exact H4].
  unfold dot0. now rewrite H2.
Defined.

(** * Further properties of descent and rendering *)

(** ** Descent through the [Empty] field *)

Lemma location_ext (a b : CoreErrorLocation) :
  func_name a = func_name b -> refpage a = refpage b ->
  field_name a = field_name b -> index a = index b ->
  field_path a = field_path b -> a = b.
Proof. destruct a, b; simpl; intros; subst; reflexivity. Qed.

Lemma dot_field_path_args (l : CoreErrorLocation) f i g j :
  field_path (dot l f i) = field_path (dot l g j).
Proof.
  destruct (Field.eq_dec (field_name l) Field.Empty) as [He|Hne].
  - now rewrite !dot_field_path_empty.
  - now rewrite !dot_field_path_named.
Qed.

(** X1: a descent into the [Empty] field followed by another descent gives
    the location the second descent alone gives: the [Empty] level and the
    index given with it leave no trace. *)
Theorem dot_through_empty (l : CoreErrorLocation) (i : N) (g : Field.t) (j : N) :
  dot (dot l Field.Empty i) g j = dot l g j.
Proof.
  apply location_ext.
  - now rewrite !dot_func_name.
  - now rewrite !dot_refpage.
  - reflexivity.
  - reflexivity.
  - rewrite (dot_field_path_empty (dot l Field.Empty i) g j) by reflexivity.
    apply dot_field_path_args.
Qed.

(** ** The message of a child from the message of its parent *)

Lemma ancestry_text_app (tbl : StringTables) (ps qs : list Path.t) :
  ancestry_text tbl (ps ++ qs) = ancestry_text tbl ps +++ ancestry_text tbl qs.
Proof.
  induction ps as [|p ps IH]; [reflexivity|].
  cbn [app ancestry_text]. rewrite IH. now repeat rewrite append_assoc.
Qed.

Lemma prefix_text_dot (tbl : StringTables) (l : CoreErrorLocation) f i :
  prefix_text tbl (dot l f i) = prefix_text tbl l.
Proof. unfold prefix_text. now rewrite dot_func_name. Qed.

Lemma Message_dot (tbl : StringTables) (l : CoreErrorLocation) f i :
  Message tbl (dot l f i)
  = prefix_text tbl l +++ ancestry_text tbl (field_path (dot l f i))
    +++ String_Field tbl f +++ index_text i.
Proof.
  rewrite Message_render_spec. unfold render_spec.
  rewrite prefix_text_dot. reflexivity.
Qed.

(** X2: when the current field of a location is not [Empty], the message
    of its child is the message of the location followed by one ["."],
    the sub-field's name and its bracketed index, if it has one. *)
Theorem Message_dot_named (tbl : StringTables) (l : CoreErrorLocation)
    (f : Field.t) (i : N) :
  field_name l <> Field.Empty ->
  Message tbl (dot l f i)
  = Message tbl l +++ "." +++ String_Field tbl f
    +++ (if i =? kNoIndex then EmptyString else "[" +++ to_decimal i +++ "]").
Proof.
  intros Hne. rewrite Message_dot, dot_field_path_named by exact Hne.
  rewrite ancestry_text_app, Message_render_spec.
  unfold render_spec. cbn [ancestry_text]. fold (index_text i).
  rewrite append_nil_r. now repeat rewrite append_assoc.
Qed.

(** X3: when a location has no field and no index, and the table gives
    the [Empty] field the empty text, the message of its child is the
    message of the location followed directly by the sub-field's name and
    bracketed index: no separator comes first. *)
Theorem Message_dot_unnamed (tbl : StringTables) (l : CoreErrorLocation)
    (f : Field.t) (i : N) :
  String_Field tbl Field.Empty = EmptyString ->
  field_name l = Field.Empty -> index l = kNoIndex ->
  Message tbl (dot l f i)
  = Message tbl l +++ String_Field tbl f
    +++ (if i =? kNoIndex then EmptyString else "[" +++ to_decimal i +++ "]").
Proof.
  intros HE He Hi. rewrite Message_dot, dot_field_path_empty by exact He.
  rewrite Message_render_spec. unfold render_spec, step_text, current_step.
  cbn [Path.field Path.index]. rewrite He, Hi, HE.
  unfold index_text at 2. rewrite N.eqb_refl. cbn [String.append].
  fold (index_text i). rewrite append_nil_r.
  now repeat rewrite append_assoc.
Qed.

(** ** The path of a chain of descents *)

Lemma full_path_dot_named (l : CoreErrorLocation) f i :
  field_name l <> Field.Empty ->
  full_path (dot l f i) = (full_path l ++ [Path.mk f i])%list.
Proof.
  intros Hne. unfold full_path. now rewrite dot_field_path_named.
Qed.

Lemma descend_cons (l : CoreErrorLocation) s steps :
  descend l (s :: steps) = descend (dot l (fst s) (snd s)) steps.
Proof. reflexivity. Qed.

Lemma full_path_descend (steps : list (Field.t * N)) : forall l,
  field_name l <> Field.Empty ->
  Forall (fun s => fst s <> Field.Empty) steps ->
  full_path (descend l steps) = (full_path l ++ map path_of_step steps)%list.
Proof.
  induction steps as [|s steps IH]; intros l Hl Hs.
  - cbn [descend fold_left map]. now rewrite app_nil_r.
  - inversion Hs as [|s' steps' Hs1 Hs2]; subst.
    rewrite descend_cons, IH; [|exact Hs1|exact Hs2].
    rewrite full_path_dot_named by exact Hl.
    cbn [map]. unfold path_of_step at 2. now rewrite <- app_assoc.
Qed.

Lemma path_of_step_inj (s t : Field.t * N) :
  path_of_step s = path_of_step t -> s = t.
Proof.
  destruct s, t. unfold path_of_step. cbn [fst snd].
  intros H. injection H as -> ->. reflexivity.
Qed.

Lemma map_path_of_step_inj (xs : list (Field.t * N)) : forall ys,
  map path_of_step xs = map path_of_step ys -> xs = ys.
Proof.
  induction xs as [|x xs IH]; intros [|y ys] H; try discriminate H;
    [reflexivity|].
  cbn [map] in H.
  f_equal; [apply path_of_step_inj | apply IH]; congruence.
Qed.

(** X4: from a location whose current field is not [Empty], a chain of
    descents into fields none of which is [Empty] records every step in
    order: the full path of the result is the full path of the location
    followed by the steps of the chain.  Two such chains that reach the
    same location are the same chain. *)
Theorem descend_records_chain (l : CoreErrorLocation)
    (steps steps' : list (Field.t * N)) :
  field_name l <> Field.Empty ->
  Forall (fun s => fst s <> Field.Empty) steps ->
  Forall (fun s => fst s <> Field.Empty) steps' ->
  full_path (descend l steps) = (full_path l ++ map path_of_step steps)%list /\
  (descend l steps = descend l steps' -> steps = steps').
Proof.
  intros Hl Hs Hs'. split; [now apply full_path_descend|].
  intros Heq. apply (f_equal full_path) in Heq.
  rewrite !full_path_descend in Heq by assumption.
  apply app_inv_head in Heq. now apply map_path_of_step_inj.
Qed.

Lemma dot_field_path_suffix (l : CoreErrorLocation) f i :
  exists suffix, field_path (dot l f i) = (field_path l ++ suffix)%list /\
                 (List.length suffix <= 1)%nat.
Proof.
  destruct (Field.eq_dec (field_name l) Field.Empty) as [He|Hne].
  - exists []. rewrite dot_field_path_empty by exact He.
    rewrite app_nil_r. split; [reflexivity | simpl; lia].
  - exists [current_step l]. rewrite dot_field_path_named by exact Hne.
    split; [reflexivity | simpl; lia].
Qed.

(** X5: descents only ever append to the ancestry.  After a chain of
    descents the ancestry is the one before the chain followed by at most
    one step for each descent; from a constructed root, the ancestry is no
    longer than the chain, so up to three descents stay within the three
    entries the path is sized for. *)
Theorem descend_extends_ancestry (l : CoreErrorLocation) (steps : list (Field.t * N))
    (func : ErrFunc.t) (ref : RefPage.t) (f : Field.t) (i : N) :
  (exists suffix,
     field_path (descend l steps) = (field_path l ++ suffix)%list /\
     (List.length suffix <= List.length steps)%nat) /\
  (List.length (field_path (descend (CoreErrorLocation_new func ref f i) steps))
   <= List.length steps)%nat.
Proof.
  assert (H : forall steps l, exists suffix,
             field_path (descend l steps) = (field_path l ++ suffix)%list /\
             (List.length suffix <= List.length steps)%nat).
  { clear. induction steps as [|s steps IH]; intros l.
    - exists []. cbn [descend fold_left]. rewrite app_nil_r.
      split; [reflexivity | simpl; lia].
    - rewrite descend_cons.
      destruct (IH (dot l (fst s) (snd s))) as (suf2 & H2 & L2).
      destruct (dot_field_path_suffix l (fst s) (snd s)) as (suf1 & H1 & L1).
      exists (suf1 ++ suf2)%list. rewrite H2, H1, <- app_assoc.
      split; [reflexivity|]. rewrite length_app. simpl. lia. }
  split; [apply H|].
  destruct (H steps (CoreErrorLocation_new func ref f i)) as (suf & Hs & Ls).
  rewrite Hs. cbn [CoreErrorLocation_new field_path app]. exact Ls.
Qed.

(** ** What every message of one call shares *)

Lemma prefix_append (a b : string) : String.prefix a (a +++ b) = true.
Proof.
  induction a as [|c a IH]; [now destruct b|].
  cbn [String.append String.prefix].
  destruct (ascii_dec c c) as [_|Hne]; [exact IH | now destruct Hne].
Qed.

(** X6: the message of every location derived from a root starts with the
    root's function name followed by ["(): "]. *)
Theorem derived_message_prefix (tbl : StringTables) (root L : CoreErrorLocation) :
  derived root L ->
  String.prefix (String_ErrFunc tbl (func_name root) +++ "(): ") (Message tbl L) = true.
Proof.
  intros H. rewrite Message_render_spec. unfold render_spec, prefix_text.
  destruct (derived_identity root L H) as [-> _].
  rewrite append_assoc with (c := (_ +++ _)).
  rewrite <- append_assoc. apply prefix_append.
Qed.

(** X7: the identity used for looking up a diagnostic code is that of the
    root for every location derived from it: the function text, the
    reference-page text, and the adapter's function-name view are the
    root's. *)
Theorem derived_lookup_identity (tbl : StringTables) (F : Type) (R : VuidFunctor F)
    (root L : CoreErrorLocation) (args : Args) :
  derived root L ->
  StringFuncName tbl L = StringFuncName tbl root /\
  StringRefPage tbl L = StringRefPage tbl root /\
  FuncName tbl (CoreErrorLocationVuidAdapter_new L args)
    = String_ErrFunc tbl (func_name root).
Proof.
  intros H. destruct (derived_identity root L H) as [Hf Hr].
  unfold StringFuncName, StringRefPage, FuncName, CoreErrorLocationVuidAdapter_new,
    c_str. cbn [loc]. unfold StringFuncName. now rewrite Hf, Hr.
Qed.

(** ** Messages that tell siblings apart *)

Lemma append_inv_head (a b c : string) : a +++ b = a +++ c -> b = c.
Proof.
  induction a as [|ch a IH]; simpl; intros H; [exact H|].
  injection H as H. now apply IH.
Qed.

Lemma length_append (a b : string) :
  String.length (a +++ b) = (String.length a + String.length b)%nat.
Proof. induction a as [|ch a IH]; simpl; [reflexivity | now rewrite IH]. Qed.

Lemma append_inv_tail (c : string) : forall a b, a +++ c = b +++ c -> a = b.
Proof.
  induction a as [|x a IH]; intros [|y b] H.
  - reflexivity.
  - apply (f_equal String.length) in H. rewrite !length_append in H.
    simpl in H. lia.
  - apply (f_equal String.length) in H. rewrite !length_append in H.
    simpl in H. lia.
  - simpl in H. injection H as -> H. f_equal. now apply IH.
Qed.

Lemma to_decimal_inj (i j : N) : to_decimal i = to_decimal j -> i = j.
Proof.
  intros H. apply (f_equal decimal_value) in H.
  rewrite !to_decimal_value in H. now injection H.
Qed.

Lemma index_text_inj (i j : N) : index_text i = index_text j -> i = j.
Proof.
  unfold index_text.
  destruct (i =? kNoIndex) eqn:Hi, (j =? kNoIndex) eqn:Hj; intros H.
  - apply N.eqb_eq in Hi, Hj. congruence.
  - discriminate H.
  - discriminate H.
  - simpl in H. injection H as H.
    apply append_inv_tail in H. now apply to_decimal_inj.
Qed.

(** X8: two children of one location under the same sub-field have the
    same message exactly when they have the same index, the sentinel
    included: distinct elements of an array never share a message. *)
Theorem sibling_indices_distinguished (tbl : StringTables) (l : CoreErrorLocation)
    (f : Field.t) (i j : N) :
  Message tbl (dot l f i) = Message tbl (dot l f j) <-> i = j.
Proof.
  split; [|now intros ->].
  rewrite !Message_dot, (dot_field_path_args l f j f i). intros H.
  do 3 apply append_inv_head in H. now apply index_text_inj.
Qed.

(** X9: two children of one location under the same index have the same
    message exactly when the table gives their sub-fields the same text. *)
Theorem sibling_fields_distinguished (tbl : StringTables) (l : CoreErrorLocation)
    (f g : Field.t) (i : N) :
  Message tbl (dot l f i) = Message tbl (dot l g i)
  <-> String_Field tbl f = String_Field tbl g.
Proof.
  rewrite !Message_dot, (dot_field_path_args l g i f i). split.
  - intros H. do 2 apply append_inv_head in H.
    now apply append_inv_tail in H.
  - now intros ->.
Qed.

(** ** Chained calls on the store *)

Lemma descend_at_run (steps : list (Field.t * N)) :
  forall (s : store) (a : addr) (L : CoreErrorLocation),
  load s a = Some L ->
  exists r s',
    descend_at a steps s = Some (r, s') /\
    load s' r = Some (descend L steps) /\
    (forall b, (b < List.length s)%nat -> load s' b = load s b) /\
    List.length s' = (List.length s + List.length steps)%nat.
Proof.
  induction steps as [|st steps IH]; intros s a L Ha.
  - exists a, s. cbn [descend_at descend fold_left List.length]. unfold ret.
    repeat split; [exact Ha | lia].
  - cbn [descend_at]. unfold bind.
    rewrite (dot_at_run s a L (fst st) (snd st) Ha).
    destruct (IH (s ++ [dot L (fst st) (snd st)])%list (List.length s)
                (dot L (fst st) (snd st)) (load_app_new _ _))
      as (r & s' & Hrun & Hr & Hold & Hlen).
    exists r, s'. split; [exact Hrun|]. split; [exact Hr|]. split.
    + intros b Hb. rewrite Hold by (rewrite length_app; simpl; lia).
      now apply load_app_old.
    + rewrite Hlen, length_app. simpl. lia.
Qed.

(** X10: a chain of calls [loc.dot(..).dot(..)...] through the address of a
    location faults nowhere and returns an object equal to the chain of
    descents computed from the location alone; it adds one object for each
    call and leaves the location and every object that was there as they
    were. *)
Theorem chained_dot_on_store (s : store) (a : addr) (L : CoreErrorLocation)
    (steps : list (Field.t * N)) :
  load s a = Some L ->
  exists r s',
    descend_at a steps s = Some (r, s') /\
    load s' r = Some (descend L steps) /\
    load s' a = Some L /\
    (forall b, (b < List.length s)%nat -> load s' b = load s b) /\
    List.length s' = (List.length s + List.length steps)%nat.
Proof.
  intros Ha.
  destruct (descend_at_run steps s a L Ha) as (r & s' & Hrun & Hr & Hold & Hlen).
  exists r, s'. repeat split; try assumption.
  rewrite Hold by (eapply load_lt; eauto). exact Ha.
Qed.

(** ** Counting the separators *)

Lemma count_char_append (c : ascii) (a b : string) :
  count_char c (a +++ b) = (count_char c a + count_char c b)%nat.
Proof.
  induction a as [|x a IH]; [reflexivity|].
  cbn [String.append count_char]. rewrite IH. lia.
Qed.

Lemma digit_char_not_dot (d : N) :
  d < 10 -> Ascii.eqb (digit_char d) "."%char = false.
Proof.
  intros Hd. apply Ascii.eqb_neq. intros Heq.
  pose proof (digit_value_char d Hd) as Hv. rewrite Heq in Hv.
  vm_compute in Hv. discriminate Hv.
Qed.

Lemma count_dot_put_digits (fuel : nat) : forall n acc,
  count_char "."%char (put_digits fuel n acc) = count_char "."%char acc.
Proof.
  assert (Hm : forall n, n mod 10 < 10) by (intros n; apply N.mod_lt; lia).
  induction fuel as [|fuel IH]; intros n acc; cbn [put_digits].
  - cbn [count_char]. now rewrite digit_char_not_dot.
  - destruct (n / 10 =? 0).
    + cbn [count_char]. now rewrite digit_char_not_dot.
    + rewrite IH. cbn [count_char]. now rewrite digit_char_not_dot.
Qed.

Lemma count_dot_index_text (i : N) : count_char "."%char (index_text i) = O.
Proof.
  unfold index_text. destruct (i =? kNoIndex); [reflexivity|].
  rewrite !count_char_append. unfold to_decimal.
  rewrite count_dot_put_digits. reflexivity.
Qed.

Lemma count_dot_ancestry_text (tbl : StringTables) (ps : list Path.t) :
  (forall f, count_char "."%char (String_Field tbl f) = O) ->
  count_char "."%char (ancestry_text tbl ps) = List.length ps.
Proof.
  intros Hf. induction ps as [|p ps IH]; [reflexivity|].
  cbn [ancestry_text List.length]. unfold step_text.
  rewrite !count_char_append, Hf, count_dot_index_text, IH. reflexivity.
Qed.

(** X11: when no text of the table contains a ["."], the message of a
    location contains exactly as many ["."] as its ancestry has steps: one
    for each step of the path before the current field, and none
    elsewhere. *)
Theorem Message_separator_count (tbl : StringTables) (L : CoreErrorLocation) :
  (forall fn, count_char "."%char (String_ErrFunc tbl fn) = O) ->
  (forall f, count_char "."%char (String_Field tbl f) = O) ->
  count_char "."%char (Message tbl L) = List.length (field_path L).
Proof.
  intros Hfn Hf. rewrite Message_render_spec.
  unfold render_spec, prefix_text, step_text.
  rewrite !count_char_append, Hfn, Hf, count_dot_index_text,
    count_dot_ancestry_text by exact Hf.
  cbn [count_char]. simpl. lia.
Qed.

(** X12: when the table gives the [Empty] field the empty text, a descent
    without index into the [Empty] field from a location whose current
    field is not [Empty] adds only the separator: the message of the child
    is that of the location followed by ["."], and so ends with it. *)
Theorem Message_dot_into_empty (tbl : StringTables) (l : CoreErrorLocation) :
  String_Field tbl Field.Empty = EmptyString ->
  field_name l <> Field.Empty ->
  Message tbl (dot0 l Field.Empty) = Message tbl l +++ ".".
Proof.
  intros HE Hne. unfold dot0.
  rewrite Message_dot, dot_field_path_named by exact Hne.
  rewrite ancestry_text_app, Message_render_spec. unfold render_spec.
  cbn [ancestry_text]. change (index_text kNoIndex) with EmptyString.
  rewrite HE. cbn [String.append]. rewrite !append_nil_r.
  now repeat rewrite append_assoc.
Qed.

(** ** The further properties at concrete locations *)

(** The sibling of the third scenario, from its parent's message. *)
Lemma Message_dot_named_witness :
  field_name wait_events_base <> Field.Empty /\
  Message spec_tables (dot wait_events_base Field.srcAccessMask 1)
  = (Message spec_tables wait_events_base +++ ".srcAccessMask[1]").
Proof.
  assert (Hne : field_name wait_events_base <> Field.Empty)
    by (intros H; discriminate H).
  split; [exact Hne|].
  exact (Message_dot_named spec_tables wait_events_base Field.srcAccessMask 1 Hne).
Defined.

(** The first descent of the second scenario. *)
Lemma Message_dot_unnamed_witness :
  String_Field spec_tables Field.Empty = EmptyString /\
  field_name queue_submit_root = Field.Empty /\
  index queue_submit_root = kNoIndex /\
  Message spec_tables (dot queue_submit_root Field.pCommandBuffers 0)
  = (Message spec_tables queue_submit_root +++ "pCommandBuffers[0]").
Proof.
  repeat (split; [reflexivity|]).
  exact (Message_dot_unnamed spec_tables queue_submit_root Field.pCommandBuffers 0
           eq_refl eq_refl eq_refl).
Defined.

Definition barrier_chain : list (Field.t * N) :=
  [(Field.subresourceRange, kNoIndex); (Field.size, 2)].

Definition other_chain : list (Field.t * N) :=
  [(Field.subresourceRange, kNoIndex); (Field.offset, 2)].

Lemma named_chain (steps : list (Field.t * N)) :
  forallb (fun s => if Field.eq_dec (fst s) Field.Empty then false else true) steps = true ->
  Forall (fun s => fst s <> Field.Empty) steps.
Proof.
  intros H. apply Forall_forall. intros s Hs.
  rewrite forallb_forall in H. specialize (H s Hs).
  now destruct (Field.eq_dec (fst s) Field.Empty).
Defined.

(** Two chains of two named steps under [pMemoryBarriers[3]]. *)
Lemma descend_records_chain_witness :
  field_name wait_events_base <> Field.Empty /\
  Forall (fun s => fst s <> Field.Empty) barrier_chain /\
  Forall (fun s => fst s <> Field.Empty) other_chain /\
  full_path (descend wait_events_base barrier_chain)
  = [Path.mk Field.pMemoryBarriers 3; Path.mk Field.subresourceRange kNoIndex;
     Path.mk Field.size 2] /\
  (descend wait_events_base barrier_chain = descend wait_events_base other_chain ->
   barrier_chain = other_chain).
Proof.
  assert (Hne : field_name wait_events_base <> Field.Empty)
    by (intros H; discriminate H).
  assert (H1 : Forall (fun s => fst s <> Field.Empty) barrier_chain)
    by (apply named_chain; reflexivity).
  assert (H2 : Forall (fun s => fst s <> Field.Empty) other_chain)
    by (apply named_chain; reflexivity).
  split; [exact Hne|]. split; [exact H1|]. split; [exact H2|].
  exact (descend_records_chain wait_events_base barrier_chain other_chain Hne H1 H2).
Defined.

(** The leaf of the first scenario. *)
Lemma derived_message_prefix_witness :
  derived queue_submit_root
    (dot0 (dot queue_submit_root Field.pCommandBuffers 0) Field.commandBuffer) /\
  String.prefix "vkQueueSubmit(): "
    (Message spec_tables
       (dot0 (dot queue_submit_root Field.pCommandBuffers 0) Field.commandBuffer))
  = true.
Proof.
  assert (H : derived queue_submit_root
                (dot0 (dot queue_submit_root Field.pCommandBuffers 0)
                      Field.commandBuffer))
    by (unfold dot0; repeat constructor).
  split; [exact H|].
  exact (derived_message_prefix spec_tables queue_submit_root _ H).
Defined.

(** The same leaf behind an adapter over the table resolver. *)
Lemma derived_lookup_identity_witness :
  derived queue_submit_root
    (dot0 (dot queue_submit_root Field.pCommandBuffers 0) Field.commandBuffer) /\
  FuncName spec_tables
    (CoreErrorLocationVuidAdapter_new
       (dot0 (dot queue_submit_root Field.pCommandBuffers 0) Field.commandBuffer)
       (spec_tables : @Args StringTables table_resolver))
  = "vkQueueSubmit"%string.
Proof.
  assert (H : derived queue_submit_root
                (dot0 (dot queue_submit_root Field.pCommandBuffers 0)
                      Field.commandBuffer))
    by (unfold dot0; repeat constructor).
  split; [exact H|].
  exact (proj2 (proj2 (derived_lookup_identity spec_tables StringTables
                         table_resolver queue_submit_root _ spec_tables H))).
Defined.

(** A chain of two calls through the only object of a store. *)
Lemma chained_dot_on_store_witness :
  load [wait_events_base] 0%nat = Some wait_events_base /\
  exists r s',
    descend_at 0%nat barrier_chain [wait_events_base] = Some (r, s') /\
    load s' r = Some (descend wait_events_base barrier_chain) /\
    load s' 0%nat = Some wait_events_base /\
    List.length s' = 3%nat.
Proof.
  split; [reflexivity|].
  destruct (chained_dot_on_store [wait_events_base] 0%nat wait_events_base
              barrier_chain eq_refl) as (r & s' & H1 & H2 & H3 & _ & H4).
  exists r, s'. repeat split; assumption.
Defined.

(** The first scenario: one step of ancestry, one separator. *)
Lemma Message_separator_count_witness :
  (forall fn, count_char "."%char (String_ErrFunc spec_tables fn) = O) /\
  (forall f, count_char "."%char (String_Field spec_tables f) = O) /\
  count_char "."%char
    (Message spec_tables
       (dot0 (dot (CoreErrorLocation_new0 ErrFunc.vkCmdPipelineBarrier
                     RefPage.VkImageMemoryBarrier)
                  Field.pImageMemoryBarriers 42)
             Field.srcAccessMask))
  = 1%nat.
Proof.
  assert (Hfn : forall fn, count_char "."%char (String_ErrFunc spec_tables fn) = O)
    by (intros fn; destruct fn; reflexivity).
  assert (Hf : forall f, count_char "."%char (String_Field spec_tables f) = O)
    by (intros f; destruct f; reflexivity).
  split; [exact Hfn|]. split; [exact Hf|].
  exact (Message_separator_count spec_tables _ Hfn Hf).
Defined.

(** A descent into the [Empty] field under [pMemoryBarriers[3]]. *)
Lemma Message_dot_into_empty_witness :
  String_Field spec_tables Field.Empty = EmptyString /\
  field_name wait_events_base <> Field.Empty /\
  Message spec_tables (dot0 wait_events_base Field.Empty)
  = "vkCmdWaitEvents(): pMemoryBarriers[3]."%string.
Proof.
  assert (Hne : field_name wait_events_base <> Field.Empty)
    by (intros H; discriminate H).
  split; [reflexivity|]. split; [exact Hne|].
  exact (Message_dot_into_empty spec_tables wait_events_base eq_refl Hne).
Defined.
